(* ===================================================================== *)
(* Pixel-permutation experiment of DSA5204_permutation.ipynb             *)
(*                                                                       *)
(*   get_shuffle_indices : index array built by n random pairwise swaps  *)
(*   shuffle_image       : gathers the pixels of one or more images      *)
(*   magic               : gathers the rows of the first dense kernel    *)
(*                                                                       *)
(* The notebook works on numpy arrays.  An array is modelled by its      *)
(* shape together with its elements in row-major (C) order; Python       *)
(* exceptions are modelled by an error result.                           *)
(* ===================================================================== *)

From mathcomp Require Import ssreflect ssrfun ssrbool eqtype ssrnat seq div.
From mathcomp Require Import choice fintype bigop finset fingroup perm.
From mathcomp Require Import ssralg ssrnum ssrint.

Set Implicit Arguments.
Unset Strict Implicit.
Unset Printing Implicit Defensive.

(* --------------------------------------------------------------------- *)
(* Python exceptions                                                     *)
(* --------------------------------------------------------------------- *)

Inductive exn := ValueError | IndexError.

Inductive result (A : Type) := Ok of A | Raise of exn.
Arguments Raise {A} e.

Definition bind A B (r : result A) (k : A -> result B) : result B :=
  match r with
  | Ok a => k a
  | Raise e => Raise e
  end.

Notation "x <- r ;; k" := (bind r (fun x => k))
  (at level 100, r at next level, right associativity).

Definition is_ok A (r : result A) : bool :=
  if r is Ok _ then true else false.

Definition raises A (r : result A) : bool := ~~ is_ok r.

Fixpoint mapM A B (f : A -> result B) (s : seq A) : result (seq B) :=
  if s is x :: s' then
    y <- f x ;; ys <- mapM f s' ;; Ok (y :: ys)
  else Ok [::].

(* --------------------------------------------------------------------- *)
(* numpy integer indexing                                                *)
(* --------------------------------------------------------------------- *)

(* An integer index k into an axis of length D: k in [0, D) is itself,
   k in [-D, 0) counts from the end, anything else is an IndexError. *)
Definition norm_index (D : nat) (k : int) : result nat :=
  match k with
  | Posz m => if m < D then Ok m else Raise IndexError
  | Negz m => if m < D then Ok (D - m.+1) else Raise IndexError
  end.

(* a[k] and a[k] = v on a one-dimensional integer array *)
Definition getitem (a : seq int) (k : int) : result int :=
  m <- norm_index (size a) k ;; Ok (nth 0%R a m).

Definition setitem (a : seq int) (k : int) (v : int) : result (seq int) :=
  m <- norm_index (size a) k ;; Ok (set_nth 0%R a m v).

(* np.arange(n): the integers 0 .. n-1, empty when n <= 0 *)
Definition arange (n : int) : seq int :=
  if n is Posz m then [seq Posz i | i <- iota 0 m] else [::].

(* number of iterations of `for _ in range(n)` *)
Definition range_len (n : int) : nat :=
  if n is Posz m then m else 0.

(* --------------------------------------------------------------------- *)
(* get_shuffle_indices                                                   *)
(* --------------------------------------------------------------------- *)

(* The random source: draws k is the pair of indices that the k-th call
   np.random.choice(a, size=(2, ), replace=False) of one run hands back. *)
Definition rng := nat -> nat * nat.

(* What numpy promises about one such pair: two distinct positions of
   np.arange(a). *)
Definition valid_draw (a : nat) (d : nat * nat) : bool :=
  [&& d.1 < a, d.2 < a & d.1 != d.2].

(* ... for each of the n pairs that a run of n iterations draws *)
Definition valid_draws (a n : nat) (draws : rng) : Prop :=
  forall k, k < n -> valid_draw a (draws k).

(* np.random.choice(a, size=(2, ), replace=False): numpy rejects a <= 0 and
   a sample larger than the population before drawing anything. *)
Definition choice2 (a : int) (d : nat * nat) : result (int * int) :=
  if a is Posz m then
    if 1 < m then Ok (Posz d.1, Posz d.2) else Raise ValueError
  else Raise ValueError.

(* shuf_idx[i], shuf_idx[j] = shuf_idx[j], shuf_idx[i]
   The right-hand side is read first (integer indexing copies the two
   scalars), then position i and position j are written in that order. *)
Definition swap (shuf_idx : seq int) (i j : int) : result (seq int) :=
  vj <- getitem shuf_idx j ;;
  vi <- getitem shuf_idx i ;;
  s1 <- setitem shuf_idx i vj ;;
  setitem s1 j vi.

(* the body of the for loop, run for the calls k, k+1, ..., k+n-1 *)
Fixpoint swap_loop (a : int) (draws : rng) (k n : nat) (shuf_idx : seq int)
  : result (seq int) :=
  if n is n'.+1 then
    ij <- choice2 a (draws k) ;;
    s' <- swap shuf_idx ij.1 ij.2 ;;
    swap_loop a draws k.+1 n' s'
  else Ok shuf_idx.

(* get_shuffle_indices with the pixel count, which the notebook writes as
   the literal 784 in np.arange and in np.random.choice, as a parameter. *)
Definition get_shuffle_indices_of (size : int) (n : int) (draws : rng)
  : result (seq int) :=
  swap_loop size draws 0 (range_len n) (arange size).

Definition get_shuffle_indices (n : int) (draws : rng) : result (seq int) :=
  get_shuffle_indices_of (Posz 784) n draws.

(* --------------------------------------------------------------------- *)
(* numpy arrays as values                                                *)
(* --------------------------------------------------------------------- *)

Record ndarray (T : Type) := NdArray { shape : seq nat; data : seq T }.

Definition numel (sh : seq nat) : nat := foldr muln 1 sh.

Definition ndim T (a : ndarray T) : nat := size (shape a).

Definition well_formed T (a : ndarray T) : bool :=
  size (data a) == numel (shape a).

(* image.shape[0] *)
Definition first_dim (sh : seq nat) : result nat :=
  if sh is d :: _ then Ok d else Raise IndexError.

(* The shape computed by a.reshape(newshape), where None stands for the
   entry -1: at most one entry may be unknown, it is inferred from the
   element count, and the element count must be kept. *)
Definition reshape_shape (sh : seq nat) (newshape : seq (option nat))
  : result (seq nat) :=
  let s_original := numel sh in
  let s_known := numel (pmap id newshape) in
  match count (fun d : option nat => ~~ d) newshape with
  | 0 => if s_original == s_known then Ok (pmap id newshape)
         else Raise ValueError
  | 1 => if (s_known == 0) || (s_original %% s_known != 0)
         then Raise ValueError
         else Ok [seq odflt (s_original %/ s_known) d | d <- newshape]
  | _ => Raise ValueError
  end.

Definition nd_reshape T (a : ndarray T) (newshape : seq (option nat))
  : result (ndarray T) :=
  sh <- reshape_shape (shape a) newshape ;; Ok (NdArray sh (data a)).

(* a.squeeze(): every axis of length one is dropped *)
Definition squeeze_shape (sh : seq nat) : seq nat := [seq d <- sh | d != 1].

Definition squeeze T (a : ndarray T) : ndarray T :=
  NdArray (squeeze_shape (shape a)) (data a).

(* the m-th run of blk consecutive elements *)
Definition block T (blk : nat) (s : seq T) (m : nat) : seq T :=
  take blk (drop (m * blk) s).

(* a[:, idx] with idx a one-dimensional integer array: along the second
   axis, entry k of the result is entry idx[k] of a; the result is a new
   array.  Indexing an array of fewer than two axes this way is an
   IndexError. *)
Definition take_cols T (a : ndarray T) (idx : seq int) : result (ndarray T) :=
  match shape a with
  | N :: D :: rest =>
      let blk := numel rest in
      ms <- mapM (norm_index D) idx ;;
      Ok (NdArray (N :: size idx :: rest)
            (flatten [seq flatten [seq block blk (block (D * blk) (data a) r) m
                                  | m <- ms]
                     | r <- iota 0 N]))
  | _ => Raise IndexError
  end.

(* a[idx, :]: the same along the first axis *)
Definition take_rows T (a : ndarray T) (idx : seq int) : result (ndarray T) :=
  match shape a with
  | D :: H :: rest =>
      let blk := numel (H :: rest) in
      ms <- mapM (norm_index D) idx ;;
      Ok (NdArray (size idx :: H :: rest)
            (flatten [seq block blk (data a) m | m <- ms]))
  | _ => Raise IndexError
  end.

(* a[k] for an integer k: the k-th entry along the first axis, an array
   with one axis less (x_train_shuf[0] in shuffle_and_eval) *)
Definition item T (a : ndarray T) (k : int) : result (ndarray T) :=
  match shape a with
  | d :: rest =>
      m <- norm_index d k ;;
      Ok (NdArray rest (block (numel rest) (data a) m))
  | [::] => Raise IndexError
  end.

(* --------------------------------------------------------------------- *)
(* shuffle_image                                                         *)
(* --------------------------------------------------------------------- *)

Definition shuffle_image T (image : ndarray T) (shuf_idx : seq int)
  : result (ndarray T) :=
  let image :=
    if ndim image == 2 then NdArray (1 :: shape image) (data image)
    else image in
  n <- first_dim (shape image) ;;
  image <- nd_reshape image [:: Some n; None] ;;
  image <- take_cols image shuf_idx ;;
  image <- nd_reshape image [:: None; Some 28; Some 28] ;;
  Ok (squeeze image).

(* --------------------------------------------------------------------- *)
(* shuffle_image on array objects                                        *)
(* --------------------------------------------------------------------- *)

(* Memory is a store of element buffers.  An array object names a buffer
   and carries a shape; image[None, :, :], reshape and squeeze give a new
   object on the same buffer (a view), indexing with an integer array
   fills a fresh buffer. *)
Definition heap (T : Type) := seq (seq T).

Record aref := ARef { buf : nat; ashape : seq nat }.

Definition deref T (h : heap T) (r : aref) : ndarray T :=
  NdArray (ashape r) (nth [::] h (buf r)).

Definition M (T A : Type) := heap T -> heap T * result A.

Definition ret T A (a : A) : M T A := fun h => (h, Ok a).

Definition lift_result T A (r : result A) : M T A := fun h => (h, r).

Definition bindM T A B (m : M T A) (k : A -> M T B) : M T B :=
  fun h =>
    match m h with
    | (h', Ok a) => k a h'
    | (h', Raise e) => (h', Raise e)
    end.

Notation "x <~ m ;; k" := (bindM m (fun x => k))
  (at level 100, m at next level, right associativity).

Definition read T (r : aref) : M T (ndarray T) :=
  fun h => (h, Ok (deref h r)).

Definition new_array T (v : ndarray T) : M T aref :=
  fun h => (rcons h (data v), Ok (ARef (size h) (shape v))).

Definition view (r : aref) (sh : seq nat) : aref := ARef (buf r) sh.

Definition shuffle_image_mem T (image : aref) (shuf_idx : seq int)
  : M T aref :=
  let image :=
    if size (ashape image) == 2 then view image (1 :: ashape image)
    else image in
  n <~ lift_result (first_dim (ashape image)) ;;
  sh <~ lift_result (reshape_shape (ashape image) [:: Some n; None]) ;;
  let image := view image sh in
  v <~ read image ;;
  g <~ lift_result (take_cols v shuf_idx) ;;
  image <~ new_array g ;;
  sh <~ lift_result
          (reshape_shape (ashape image) [:: None; Some 28; Some 28]) ;;
  ret (view image (squeeze_shape sh)).

(* --------------------------------------------------------------------- *)
(* magic                                                                 *)
(* --------------------------------------------------------------------- *)

(* The Keras model is seen through get_weights and set_weights only: it
   holds the list of its weight arrays.  As Keras documents it,
   set_weights takes a list with as many arrays as the model has, each of
   the shape of the array it replaces, and raises ValueError otherwise,
   installing nothing. *)
Definition keras_model (T : Type) := seq (ndarray T).

Definition get_weights T (model : keras_model T) : seq (ndarray T) := model.

Definition set_weights T (model : keras_model T) (ws : seq (ndarray T))
  : result (keras_model T) :=
  if [seq shape w | w <- ws] == [seq shape w | w <- model] then Ok ws
  else Raise ValueError.

(* magic reads the global shuf_idx; it is an argument here.  The tuple
   assignment W, b, w, c = ... raises ValueError unless the list has four
   entries.  The model after the call is returned with the outcome. *)
Definition magic T (model : keras_model T) (shuf_idx : seq int)
  : keras_model T * result unit :=
  match get_weights model with
  | [:: W; b; w; c] =>
      match (W_shuf <- take_rows W shuf_idx ;;
             set_weights model [:: W_shuf; b; w; c]) with
      | Ok model' => (model', Ok tt)
      | Raise e => (model, Raise e)
      end
  | _ => (model, Raise ValueError)
  end.

(* --------------------------------------------------------------------- *)
(* The first dense layer                                                 *)
(* --------------------------------------------------------------------- *)

Section Dense.

Variable R : pzSemiRingType.

(* entry [i, h] of a two-dimensional array with rows of length H *)
Definition entry (H : nat) (K : seq R) (i h : nat) : R :=
  nth 0%R K (i * H + h).

(* K^T . x for a kernel K of shape [D, H] and a flattened image x: hidden
   unit h receives the sum over the D inputs of K[i, h] * x[i]. *)
Definition kernelT_dot (K : ndarray R) (x : seq R) : seq R :=
  match shape K with
  | [:: D; H] =>
      [seq (\sum_(i <- iota 0 D) entry H (data K) i h * nth 0 x i)%R
      | h <- iota 0 H]
  | _ => [::]
  end.

End Dense.

(* --------------------------------------------------------------------- *)
(* Permutations as index arrays                                          *)
(* --------------------------------------------------------------------- *)

(* p holds every integer of [0, D) exactly once *)
Definition is_permutation (D : nat) (p : seq int) : bool :=
  perm_eq p (arange (Posz D)).

(* q undoes p: q[p[i]] = i at every position i *)
Definition is_inverse (p q : seq int) : bool :=
  (size q == size p) &&
  all (fun i => if getitem q (nth 0%R p i) is Ok v then v == Posz i
                else false)
      (iota 0 (size p)).

(* --------------------------------------------------------------------- *)
(* Notions used to state the properties                                  *)
(* --------------------------------------------------------------------- *)

Definition map_result A B (f : A -> B) (r : result A) : result B :=
  match r with
  | Ok a => Ok (f a)
  | Raise e => Raise e
  end.

(* the index array of a permutation of the D positions *)
Definition perm_array (D : nat) (s : 'S_D) : seq int :=
  [seq Posz (s k) | k <- enum 'I_D].

(* the index array that exchanges a and b and keeps the other positions *)
Definition transposition_array (D a b : nat) : seq int :=
  [seq Posz (if k == a then b else if k == b then a else k) | k <- iota 0 D].

(* the transpositions of positions made by the calls k, ..., k+n-1 *)
Definition transpositions (m : nat) (draws : rng) (k n : nat)
  : seq ('I_m.+1 * 'I_m.+1) :=
  [seq (inord (draws i).1, inord (draws i).2) | i <- iota k n].

(* the product of a list of transpositions *)
Definition tperm_prod (D : nat) (ts : seq ('I_D * 'I_D)) : 'S_D :=
  (\prod_(t <- ts) tperm t.1 t.2)%g.

(* the positions handed back by the first n draws *)
Definition drawn_positions (n : nat) (draws : rng) : seq nat :=
  [seq (draws c).1 | c <- iota 0 n] ++ [seq (draws c).2 | c <- iota 0 n].

(* the entries of a row picked at the positions ms, in that order *)
Definition gather_row T (row : seq T) (ms : seq nat) : seq T :=
  flatten [seq block 1 row m | m <- ms].

(* the same for each of the N rows of length D laid out in s *)
Definition gather_rows T (N D : nat) (s : seq T) (ms : seq nat) : seq T :=
  flatten [seq gather_row (block D s r) ms | r <- iota 0 N].

(* a batch of N images of 28 x 28 pixels; a lone image may come without
   the batch axis *)
Definition is_image_batch T (N : nat) (image : ndarray T) : bool :=
  well_formed image &&
  ((shape image == [:: N; 28; 28])
   || (N == 1) && (shape image == [:: 28; 28])).

(* --------------------------------------------------------------------- *)
(* Concrete inputs                                                       *)
(* --------------------------------------------------------------------- *)

(* call k draws the positions k and k+1 *)
Definition successive_draws : rng := fun k => (k, k.+1).

Definition image_2x2 : ndarray nat := NdArray [:: 2; 2] [:: 1; 2; 3; 4].

Definition perm_2031 : seq int := [:: Posz 2; Posz 0; Posz 3; Posz 1].

(* a lone 28 x 28 image with an explicit batch axis; pixel k holds k *)
Definition ramp_batch1 : ndarray nat := NdArray [:: 1; 28; 28] (iota 0 784).

(* a batch of no image *)
Definition empty_batch : ndarray nat := NdArray [:: 0; 28; 28] [::].

(* lone images of other sizes, each with an explicit batch axis: 2 x 2,
   14 x 56 (784 pixels) and 28 x 56 (1568 pixels) *)
Definition batch_2x2 : ndarray nat := NdArray [:: 1; 2; 2] [:: 1; 2; 3; 4].

Definition wide_batch1 : ndarray nat := NdArray [:: 1; 14; 56] (iota 0 784).

Definition long_batch1 : ndarray nat := NdArray [:: 1; 28; 56] (iota 0 1568).

(* the identity over the 1568 positions of long_batch1 *)
Definition long_perm : seq int := arange (Posz 1568).

(* the permutation that reverses the 784 positions; it undoes itself *)
Definition reversal : seq int := rev (arange (Posz 784)).

(* a store holding the one buffer of ramp_batch1, and the array on it *)
Definition ramp_heap : heap nat := [:: iota 0 784].

Definition ramp_ref : aref := ARef 0 [:: 1; 28; 28].

(* two images whose pixels are numbered 0 .. 1567, and an index array
   over the first half of the positions *)
Definition two_images : ndarray nat := NdArray [:: 2; 28; 28] (iota 0 1568).

Definition half_perm : seq int := arange (Posz 392).

(* a 3 x 2 kernel with its bias, and a second layer, over the integers *)
Definition kernel_3x2 : ndarray int :=
  NdArray [:: 3; 2] [:: 1; 2; 3; 4; 5; 6]%Z.

Definition bias_2 : ndarray int := NdArray [:: 2] [:: 7; 8]%Z.

Definition kernel_2x1 : ndarray int := NdArray [:: 2; 1] [:: 9; 10]%Z.

Definition bias_1 : ndarray int := NdArray [:: 1] [:: 11]%Z.

Definition perm_201 : seq int := [:: Posz 2; Posz 0; Posz 1].

Definition pixels_3 : seq int := [:: 10; 20; 30]%Z.


(* the inverse of perm_201 *)
Definition perm_120 : seq int := [:: Posz 1; Posz 2; Posz 0].




(* ===================================================================== *)
(* Properties                                                            *)
(* ===================================================================== *)

Import GRing.Theory Num.Theory.

Section Results.

Lemma bind_Ok A B (a : A) (k : A -> result B) : bind (Ok a) k = k a.
Proof. by []. Qed.

Lemma mapM_is_ok A B (f : A -> result B) (s : seq A) :
  all (fun x => is_ok (f x)) s -> exists ys, mapM f s = Ok ys.
Proof.
elim: s => [|x s IH] /=; first by exists [::].
by case: (f x) => //= y /IH[ys ->]; exists (y :: ys).
Qed.

Lemma size_mapM A B (f : A -> result B) (s : seq A) ys :
  mapM f s = Ok ys -> size ys = size s.
Proof.
elim: s ys => [|x s IH] ys /=; first by case=> <-.
case: (f x) => //= y; case: (mapM f s) IH => //= ys' IH [<-] /=.
by rewrite (IH ys').
Qed.

End Results.

Section Indexing.

Implicit Types (idx : seq int) (ms : seq nat).

Lemma norm_index_nat D k : k < D -> norm_index D (Posz k) = Ok k.
Proof. by rewrite /norm_index => ->. Qed.

Lemma norm_index_lt D k m : norm_index D k = Ok m -> m < D.
Proof.
case: k => k /=; case: ifP => // ltk [<-] //.
by rewrite ltn_subrL (leq_trans _ ltk).
Qed.

Lemma mapM_norm_index_nat D ms :
  all (fun m => m < D) ms -> mapM (norm_index D) [seq Posz m | m <- ms] = Ok ms.
Proof. by elim: ms => [|m ms IH] //= /andP[-> /IH ->]. Qed.

Lemma mapM_norm_index_lt D idx ms :
  mapM (norm_index D) idx = Ok ms -> all (fun m => m < D) ms.
Proof.
elim: idx ms => [|k ks IH] ms /=; first by case=> <-.
case E: (norm_index D k) => [m|] //=.
case: (mapM _ ks) IH => //= ms' IH [<-] /=.
by rewrite (norm_index_lt E) IH.
Qed.

Lemma mapM_norm_index_raise D idx :
  ~~ all (fun k => is_ok (norm_index D k)) idx ->
  mapM (norm_index D) idx = Raise IndexError.
Proof.
elim: idx => [|k ks IH] //=; rewrite negb_and.
have [ok_k /= /IH ->|] := boolP (is_ok (norm_index D k)).
  by case: (norm_index D k) ok_k.
by case: k => k /=; case: ifP.
Qed.

End Indexing.

Section Generator.

Lemma size_arange D : size (arange (Posz D)) = D.
Proof. by rewrite /arange size_map size_iota. Qed.

Lemma swap_in_range (s : seq int) i j :
  i < size s -> j < size s ->
  swap s (Posz i) (Posz j)
  = Ok (set_nth 0%R (set_nth 0%R s i (nth 0%R s j)) j (nth 0%R s i)).
Proof.
move=> lti ltj; rewrite /swap /getitem /setitem.
rewrite !norm_index_nat //= size_set_nth.
by rewrite (leq_trans ltj (leq_maxr _ _)).
Qed.

Lemma size_perm_array D (s : 'S_D) : size (perm_array s) = D.
Proof. by rewrite /perm_array size_map size_enum_ord. Qed.

Lemma nth_perm_array D (s : 'S_D) (k : 'I_D) :
  nth 0%R (perm_array s) k = Posz (s k).
Proof.
rewrite /perm_array (nth_map k) ?size_enum_ord //.
by rewrite nth_ord_enum.
Qed.

Lemma perm_array1 D : perm_array (1 : 'S_D) = arange (Posz D).
Proof.
rewrite /perm_array /arange -val_enum_ord -map_comp.
by apply: eq_map => k /=; rewrite perm1.
Qed.

Lemma perm_array_inj D : injective (@perm_array D).
Proof.
move=> s t eq_st; apply/permP => k.
have := nth_perm_array s k; rewrite eq_st nth_perm_array.
by case=> /val_inj.
Qed.

Lemma swap_perm_array D (s : 'S_D) (i j : 'I_D) :
  swap (perm_array s) (Posz i) (Posz j) = Ok (perm_array (tperm i j * s)).
Proof.
rewrite swap_in_range ?size_perm_array //; congr Ok.
apply: (@eq_from_nth _ 0%R) => [|k].
  by rewrite !size_set_nth !size_perm_array; do 2!rewrite (maxn_idPr _) //.
rewrite !size_set_nth size_perm_array; do 2!rewrite (maxn_idPr _) //.
move=> ltk; pose k' := Ordinal ltk.
have nthk t : nth 0%R (perm_array t) k = Posz (t k').
  exact: (nth_perm_array t k').
rewrite nth_set_nth /= nth_set_nth /= !nthk !nth_perm_array permM.
rewrite -[k]/(val k') !val_eqE.
case: tpermP => [->|->|/eqP/negPf-> /eqP/negPf->] //; rewrite eqxx //.
by case: eqP => // ->.
Qed.

Lemma odd_tperm_prod D (ts : seq ('I_D * 'I_D)) :
  all (fun t => t.1 != t.2) ts -> odd_perm (tperm_prod ts) = odd (size ts).
Proof.
rewrite /tperm_prod; elim: ts => [_|t ts IH /= /andP[neq_t all_ts]].
  by rewrite big_nil odd_perm1.
by rewrite big_cons odd_permM odd_tperm neq_t IH.
Qed.

Lemma tperm_prod_rcons D (ts : seq ('I_D * 'I_D)) t :
  tperm_prod (rcons ts t) = (tperm_prod ts * tperm t.1 t.2)%g.
Proof. by rewrite /tperm_prod -cats1 big_cat big_seq1. Qed.

Lemma transpositions_distinct m draws k n :
  (forall i, k <= i < k + n -> valid_draw m.+1 (draws i)) ->
  all (fun t => t.1 != t.2) (transpositions m draws k n).
Proof.
move=> valid; apply/allP => t /mapP[i]; rewrite mem_iota => /valid.
by case/and3P=> lt1 lt2 neq12 -> /=; rewrite -val_eqE /= !inordK.
Qed.

Lemma swap_loop_perm_array m draws k n (s : 'S_m.+1) :
  0 < m -> (forall i, k <= i < k + n -> valid_draw m.+1 (draws i)) ->
  swap_loop (Posz m.+1) draws k n (perm_array s)
  = Ok (perm_array (tperm_prod (rev (transpositions m draws k n)) * s)).
Proof.
move=> lt0m; elim: n k s => [|n IH] k s valid /=.
  by rewrite /tperm_prod big_nil mul1g.
have /and3P[lt1 lt2 _] : valid_draw m.+1 (draws k).
  by apply: valid; rewrite leqnn addnS ltnS leq_addr.
rewrite ltnS lt0m /= -{1}(inordK lt1) -{1}(inordK lt2) swap_perm_array /=.
rewrite IH ?rev_cons ?tperm_prod_rcons ?mulgA // => i /andP[ltki ltin].
by apply: valid; rewrite (ltnW ltki) addnS -addSn.
Qed.

Lemma perm_array_perm_eq D (s : 'S_D) :
  perm_eq (perm_array s) (arange (Posz D)).
Proof.
rewrite -perm_array1 /perm_array.
rewrite (map_comp (fun k : 'I_D => Posz k) s).
rewrite [X in perm_eq _ X](@eq_map _ _ _ (fun k : 'I_D => Posz k)).
  by move=> k; rewrite perm1.
apply: perm_map; apply: uniq_perm.
- by rewrite (map_inj_uniq perm_inj) enum_uniq.
- exact: enum_uniq.
move=> x; rewrite mem_enum; apply/mapP; exists ((s^-1)%g x) => //.
  by rewrite mem_enum.
by rewrite permKV.
Qed.

Lemma transposition_array_tperm m a b :
  a < m.+1 -> b < m.+1 ->
  transposition_array m.+1 a b
  = perm_array (tperm (inord a : 'I_m.+1) (inord b)).
Proof.
move=> lta ltb; rewrite /transposition_array /perm_array -val_enum_ord.
rewrite -map_comp; apply: eq_map => k /=.
rewrite -{1}(inordK lta) -{2}(inordK ltb) !val_eqE.
case: tpermP => [->|->|/eqP/negPf-> /eqP/negPf-> //]; rewrite eqxx ?inordK //.
by case: eqP => // /(congr1 val); rewrite /= !inordK // => ->.
Qed.

Lemma get_shuffle_indices_of_perm m (n : nat) draws :
  0 < m -> valid_draws m.+1 n draws ->
  get_shuffle_indices_of (Posz m.+1) (Posz n) draws
  = Ok (perm_array (tperm_prod (rev (transpositions m draws 0 n)))).
Proof.
move=> lt0m valid; rewrite /get_shuffle_indices_of -perm_array1 /=.
by rewrite swap_loop_perm_array ?mulg1 // => i /andP[_]; apply: valid.
Qed.

End Generator.

(** C9.  With n >= 0 swaps, each on a pair of distinct positions, the
    array returned is the product of exactly n transpositions, its sign is
    (-1)^n, for odd n it is not the identity, and for even n it is not a
    single transposition. *)
Theorem generator_parity (n : nat) (draws : rng) :
  valid_draws 784 n draws ->
  exists2 ts : seq ('I_784 * 'I_784),
    [/\ size ts = n, all (fun t => t.1 != t.2) ts
      & get_shuffle_indices (Posz n) draws = Ok (perm_array (tperm_prod ts))]
  & [/\ odd_perm (tperm_prod ts) = odd n,
        odd n -> get_shuffle_indices (Posz n) draws <> Ok (arange (Posz 784))
      & ~~ odd n -> forall a b, a < 784 -> b < 784 -> a != b ->
          get_shuffle_indices (Posz n) draws
          <> Ok (transposition_array 784 a b)].
Proof.
move=> valid; rewrite /get_shuffle_indices.
rewrite (@get_shuffle_indices_of_perm 783) //.
set ts := rev _.
have size_ts : size ts = n by rewrite size_rev size_map size_iota.
have all_ts : all (fun t => t.1 != t.2) ts.
  rewrite all_rev; apply: transpositions_distinct => i /andP[_].
  exact: valid.
have odd_ts : odd_perm (tperm_prod ts) = odd n.
  by rewrite odd_tperm_prod // size_ts.
exists ts; split=> //.
- move=> odd_n; rewrite -perm_array1 => -[] /perm_array_inj eq1.
  by move: odd_ts; rewrite eq1 odd_perm1 odd_n.
- move=> even_n a b lta ltb neq_ab.
  rewrite transposition_array_tperm // => -[] /perm_array_inj eqt.
  move: odd_ts; rewrite eqt odd_tperm (negPf even_n).
  by rewrite -val_eqE /= !inordK // neq_ab.
Qed.

Lemma successive_draws_valid n : n < 784 -> valid_draws 784 n successive_draws.
Proof.
move=> ltn k ltk; rewrite /valid_draw /successive_draws /=.
by rewrite (leq_ltn_trans ltk ltn) (ltn_trans ltk ltn) neq_ltn ltnSn.
Qed.

Lemma generator_parity_witness :
  exists2 ts : seq ('I_784 * 'I_784),
    [/\ size ts = 3, all (fun t => t.1 != t.2) ts
      & get_shuffle_indices (Posz 3) successive_draws
        = Ok (perm_array (tperm_prod ts))]
  & [/\ odd_perm (tperm_prod ts) = odd 3,
        odd 3 ->
        get_shuffle_indices (Posz 3) successive_draws <> Ok (arange (Posz 784))
      & ~~ odd 3 -> forall a b, a < 784 -> b < 784 -> a != b ->
          get_shuffle_indices (Posz 3) successive_draws
          <> Ok (transposition_array 784 a b)].
Proof.
exact (@generator_parity 3 successive_draws (@successive_draws_valid 3 isT)).
Defined.

Lemma count_mem_arange D v :
  v < D -> count_mem (Posz v) (arange (Posz D)) = 1.
Proof.
have injP : injective Posz by move=> ? ? [].
move=> ltv; rewrite count_uniq_mem /arange /=.
  by rewrite (map_inj_uniq injP) iota_uniq.
by rewrite (mem_map injP) mem_iota ltv.
Qed.

Lemma is_permutation_facts D p :
  is_permutation D p ->
  [/\ size p = D, is_permutation D p
    & forall v, v < D -> count_mem (Posz v) p = 1].
Proof.
move=> perm_p; split=> // [|v ltv].
  by rewrite (perm_size perm_p) size_arange.
by rewrite (seq.permP perm_p) count_mem_arange.
Qed.

(** C2.  For every size > 0 and every swap count, when the pairs drawn are
    pairs of distinct positions, the generator returns a sequence of length
    size in which every integer of [0, size) occurs exactly once. *)
Theorem generator_bijection (D : nat) (n : int) (draws : rng) :
  0 < D -> valid_draws D (range_len n) draws ->
  exists2 p, get_shuffle_indices_of (Posz D) n draws = Ok p
    & [/\ size p = D, is_permutation D p
        & forall v, v < D -> count_mem (Posz v) p = 1].
Proof.
move=> lt0D valid.
suff [p -> perm_p] : exists2 p, get_shuffle_indices_of (Posz D) n draws = Ok p
                       & is_permutation D p.
  by exists p => //; apply: is_permutation_facts.
case: n valid => [[|n]|n] valid; first 1 last.
- case: D lt0D valid => [//|[|m]] _ valid.
    have := valid 0 isT; rewrite /valid_draw !ltnS !leqn0.
    by case: (draws 0) => a b /= /and3P[/eqP-> /eqP->].
  rewrite get_shuffle_indices_of_perm //.
  by eexists; first by []; apply: perm_array_perm_eq.
- by exists (arange (Posz D)) => //; apply: perm_refl.
- by exists (arange (Posz D)) => //; apply: perm_refl.
Qed.

Lemma generator_bijection_witness :
  exists2 p, get_shuffle_indices (Posz 3) successive_draws = Ok p
    & [/\ size p = 784, is_permutation 784 p
        & forall v, v < 784 -> count_mem (Posz v) p = 1].
Proof.
exact (@generator_bijection 784 (Posz 3) successive_draws isT
         (@successive_draws_valid 3 isT)).
Defined.

(** C7.  For every size > 0, with swap count 0 the generator returns
    exactly [0, 1, ..., size-1]. *)
Theorem generator_identity (D : nat) (draws : rng) :
  0 < D ->
  get_shuffle_indices_of (Posz D) (Posz 0) draws
  = Ok [seq Posz i | i <- iota 0 D].
Proof. by []. Qed.

Lemma generator_identity_witness :
  get_shuffle_indices (Posz 0) successive_draws
  = Ok [seq Posz i | i <- iota 0 784].
Proof. exact: (@generator_identity 784 successive_draws isT). Defined.

Example generator_scenario_swap_0_1 :
  get_shuffle_indices_of (Posz 4) (Posz 1) (fun _ => (0, 1))
  = Ok [:: Posz 1; Posz 0; Posz 2; Posz 3].
Proof. by []. Qed.

Section IndexArrays.

Lemma is_permutation_nat D p :
  is_permutation D p ->
  exists2 ms, p = [seq Posz m | m <- ms] & perm_eq ms (iota 0 D).
Proof.
move=> perm_p; exists [seq absz k | k <- p].
  rewrite -map_comp -[LHS]map_id; apply/eq_in_map => k.
  by rewrite (perm_mem perm_p) => /mapP[i _ ->].
have /(perm_map absz) := perm_p.
by rewrite /arange -map_comp map_id_in.
Qed.

Lemma perm_iota_lt D ms : perm_eq ms (iota 0 D) -> all (fun m => m < D) ms.
Proof.
by move=> perm_ms; apply/allP => m; rewrite (perm_mem perm_ms) mem_iota.
Qed.

Lemma is_inverse_nat D p q :
  is_permutation D p -> is_inverse p q ->
  exists ms_p ms_q,
    [/\ p = [seq Posz m | m <- ms_p], q = [seq Posz m | m <- ms_q],
        perm_eq ms_p (iota 0 D), size ms_q = D
      & all (fun m => m < D) ms_q
        /\ forall i, i < D -> nth 0 ms_p (nth 0 ms_q i) = i].
Proof.
move=> /is_permutation_nat[ms_p -> perm_p] /andP[/eqP size_q /allP inv_q].
have size_p : size ms_p = D by rewrite (perm_size perm_p) size_iota.
rewrite size_map size_p in size_q inv_q.
have nth_q j : j < D -> nth 0%R q j = Posz (index j ms_p).
  move=> ltj; have j_p : j \in ms_p by rewrite (perm_mem perm_p) mem_iota.
  have lt_ix : index j ms_p < D by rewrite -size_p index_mem.
  have := inv_q (index j ms_p); rewrite mem_iota lt_ix => /(_ isT).
  rewrite (nth_map 0) ?size_p // nth_index // /getitem.
  by rewrite norm_index_nat ?size_q //= => /eqP.
exists ms_p, [seq absz k | k <- q]; split=> //; last 2 first.
- by rewrite size_map.
- split.
    apply/(all_nthP 0) => j; rewrite size_map size_q => ltj.
    rewrite (nth_map 0%R) ?size_q // nth_q //= -size_p index_mem.
    by rewrite (perm_mem perm_p) mem_iota.
  move=> i lti; rewrite (nth_map 0%R) ?size_q // nth_q //= nth_index //.
  by rewrite (perm_mem perm_p) mem_iota.
apply: (@eq_from_nth _ 0%R) => [|j]; first by rewrite !size_map.
rewrite size_q => ltj; rewrite (nth_map 0) ?size_map ?size_q //.
by rewrite (nth_map 0%R) ?size_q // nth_q.
Qed.

End IndexArrays.

Section ShuffleImage.

Variable T : Type.
Implicit Types (image : ndarray T) (idx : seq int) (ms : seq nat).

Lemma numel_28_28 : numel [:: 28; 28] = 784.
Proof. by []. Qed.

Lemma reshape_flatten_rows N H W :
  0 < N -> reshape_shape [:: N; H; W] [:: Some N; None] = Ok [:: N; H * W].
Proof.
move=> lt0N; rewrite /reshape_shape /= !muln1 eqn0Ngt lt0N /=.
by rewrite modnMr eqxx /= mulKn.
Qed.

Lemma reshape_images N L :
  reshape_shape [:: N; L] [:: None; Some 28; Some 28]
  = if 784 %| N * L then Ok [:: N * L %/ 784; 28; 28] else Raise ValueError.
Proof.
rewrite /reshape_shape [count _ _]/= [pmap _ _]/= numel_28_28.
by rewrite [numel _]/= muln1 /dvdn !add0n addn0 [784 == 0]/= orFb; case: eqP.
Qed.

Lemma shuffle_image_batch image N H W idx :
  shape image = [:: N; H; W] -> 0 < N ->
  shuffle_image image idx
  = (ms <- mapM (norm_index (H * W)) idx ;;
     if 784 %| N * size idx
     then Ok (NdArray (squeeze_shape [:: N * size idx %/ 784; 28; 28])
                (gather_rows N (H * W) (data image) ms))
     else Raise ValueError).
Proof.
move=> sh_image lt0N; rewrite /shuffle_image /ndim sh_image.
rewrite [size _ == 2]/= sh_image [first_dim _]/= bind_Ok.
rewrite /nd_reshape sh_image reshape_flatten_rows // !bind_Ok.
rewrite /take_cols /=; case: (mapM _ _) => [ms|e] //=.
rewrite reshape_images; case: ifP => // _.
by rewrite /= /gather_rows /gather_row muln1.
Qed.

Lemma shuffle_image_single image H W idx :
  shape image = [:: H; W] ->
  shuffle_image image idx
  = shuffle_image (NdArray [:: 1; H; W] (data image)) idx.
Proof. by move=> sh_image; rewrite /shuffle_image /ndim sh_image. Qed.

Lemma block1_nth x0 (row : seq T) m :
  m < size row -> block 1 row m = [:: nth x0 row m].
Proof. by move=> ltm; rewrite /block muln1 (drop_nth x0) //= take0. Qed.

Lemma gather_row_nth x0 (row : seq T) ms :
  all (fun m => m < size row) ms ->
  gather_row row ms = [seq nth x0 row m | m <- ms].
Proof.
rewrite /gather_row; elim: ms => [|m ms IH] //= /andP[ltm all_ms].
by rewrite (block1_nth x0) // IH.
Qed.

Lemma block_flatten (F : nat -> seq T) D k N r :
  (forall i, i < N -> size (F (k + i)) = D) -> r < N ->
  block D (flatten [seq F i | i <- iota k N]) r = F (k + r).
Proof.
rewrite /block; elim: N k r => [|N IH] k r //= size_F.
have size_k : size (F k) = D by rewrite -(size_F 0) ?addn0.
case: r => [|r] ltr; first by rewrite mul0n drop0 addn0 take_size_cat.
rewrite mulSn addnC -drop_drop drop_size_cat // IH ?addSnnS // => i lti.
by rewrite addSnnS size_F.
Qed.

Lemma flatten_blocks D N (s : seq T) :
  size s = N * D -> flatten [seq block D s r | r <- iota 0 N] = s.
Proof.
elim: N s => [|N IH] s size_s /=.
  by case: s size_s.
rewrite {1}/block mul0n drop0 -[in RHS](cat_take_drop D s); congr (_ ++ _).
have size_d : size (drop D s) = N * D by rewrite size_drop size_s mulSn addKn.
rewrite -[in RHS](IH _ size_d).
rewrite -[iota 1 N]/(iota (1 + 0) N) iotaDl -map_comp; congr flatten.
apply: eq_map => r /=.
by rewrite /block drop_drop add1n mulSn addnC.
Qed.

Lemma size_block D N (s : seq T) r :
  size s = N * D -> r < N -> size (block D s r) = D.
Proof.
move=> size_s ltr; rewrite /block size_takel // size_drop size_s -mulnBl.
by rewrite leq_pmull // subn_gt0.
Qed.

Lemma size_gather_row (row : seq T) ms :
  all (fun m => m < size row) ms -> size (gather_row row ms) = size ms.
Proof.
case: row => [|x0 row] all_ms; first by case: ms all_ms.
by rewrite (gather_row_nth x0) // size_map.
Qed.

Lemma gather_row_inverse D (row : seq T) ms_p ms_q :
  size row = D -> perm_eq ms_p (iota 0 D) ->
  size ms_q = D -> all (fun m => m < D) ms_q ->
  (forall i, i < D -> nth 0 ms_p (nth 0 ms_q i) = i) ->
  gather_row (gather_row row ms_p) ms_q = row.
Proof.
move=> size_row perm_p size_q all_q inv_pq.
have size_p : size ms_p = D by rewrite (perm_size perm_p) size_iota.
have all_p : all (fun m => m < size row) ms_p.
  by rewrite size_row; apply: perm_iota_lt.
case: row size_row all_p => [|x0 row'] size_row all_p.
  by rewrite -size_row in size_q; case: ms_q size_q {all_q inv_pq}.
set row := x0 :: row' in size_row all_p *.
rewrite (gather_row_nth x0 all_p) (gather_row_nth x0) ?size_map ?size_p //.
apply: (@eq_from_nth _ x0) => [|i]; rewrite size_map size_q ?size_row // => lti.
rewrite (nth_map 0) ?size_q // (nth_map 0) ?inv_pq // size_p.
by move/all_nthP: all_q; apply; rewrite size_q.
Qed.

Lemma gather_rows_inverse N D (s : seq T) ms_p ms_q :
  size s = N * D -> perm_eq ms_p (iota 0 D) ->
  size ms_q = D -> all (fun m => m < D) ms_q ->
  (forall i, i < D -> nth 0 ms_p (nth 0 ms_q i) = i) ->
  gather_rows N D (gather_rows N D s ms_p) ms_q = s.
Proof.
move=> size_s perm_p size_q all_q inv_pq.
have size_p : size ms_p = D by rewrite (perm_size perm_p) size_iota.
rewrite -[RHS](flatten_blocks size_s) {1}/gather_rows; congr flatten.
apply/eq_in_map => r; rewrite mem_iota add0n => /andP[_ ltr].
have -> : block D (gather_rows N D s ms_p) r = gather_row (block D s r) ms_p.
  rewrite /gather_rows.
  rewrite (@block_flatten (fun i => gather_row (block D s i) ms_p) D 0 N r) //.
  move=> i lti; rewrite add0n size_gather_row ?(size_block size_s) //.
  exact: perm_iota_lt.
by rewrite (@gather_row_inverse D) // (size_block size_s).
Qed.

End ShuffleImage.

Section Permuter.

Variable T : Type.
Implicit Types (image : ndarray T) (idx p q : seq int) (ms : seq nat).

Lemma shuffle_image_784 image N idx ms :
  0 < N ->
  (shape image == [:: N; 28; 28])
  || (N == 1) && (shape image == [:: 28; 28]) ->
  size idx = 784 -> mapM (norm_index 784) idx = Ok ms ->
  shuffle_image image idx
  = Ok (NdArray (squeeze_shape [:: N; 28; 28])
          (gather_rows N 784 (data image) ms)).
Proof.
move=> lt0N sh_image size_idx idx_ms.
have batch (a : ndarray T) : shape a = [:: N; 28; 28] ->
    shuffle_image a idx
    = Ok (NdArray (squeeze_shape [:: N; 28; 28])
            (gather_rows N 784 (data a) ms)).
  move=> sh_a; rewrite (@shuffle_image_batch _ a N 28 28 idx) // idx_ms /=.
  by rewrite size_idx dvdn_mull // mulnK.
case/orP: sh_image => [/eqP/batch //|/andP[/eqP eqN /eqP sh_image]].
by rewrite (shuffle_image_single _ sh_image) batch // eqN.
Qed.

End Permuter.

Lemma images_of_one_row L :
  784 %| L ->
  squeeze_shape [:: L %/ 784; 28; 28]
  = if L == 784 then [:: 28; 28] else [:: L %/ 784; 28; 28].
Proof.
move=> /divnK eqL; rewrite /squeeze_shape /=.
have -> : (L %/ 784 != 1) = (L != 784).
  congr (~~ _); apply/eqP/eqP => [eq1|->]; last by [].
  by rewrite -eqL eq1.
by case: (L == 784).
Qed.

(** C10, as the code has it.  For a lone image given with its batch axis,
    shape [1, H, W], and H*W indices in range, the last steps are
    reshape(-1, 28, 28) and squeeze(): when H*W is not a multiple of 784
    the call raises ValueError; otherwise the result has shape [28, 28] if
    H*W = 784 and [H*W/784, 28, 28] if not, it keeps no axis of length
    one, it holds the H*W pixels, and its shape is [H, W] exactly when
    H = W = 28. *)
Theorem single_image_batch_squeezed T (image : ndarray T) (H W : nat)
    (idx : seq int) :
  well_formed image -> shape image = [:: 1; H; W] ->
  size idx = H * W -> all (fun k => is_ok (norm_index (H * W) k)) idx ->
  if 784 %| H * W then
    exists2 out, shuffle_image image idx = Ok out
      & [/\ shape out = (if H * W == 784 then [:: 28; 28]
                         else [:: H * W %/ 784; 28; 28]),
            1 \notin shape out,
            (shape out == [:: H; W]) = (H == 28) && (W == 28)
          & size (data out) = H * W]
  else shuffle_image image idx = Raise ValueError.
Proof.
move=> wf_image sh_image size_idx /mapM_is_ok[ms idx_ms].
rewrite (shuffle_image_batch idx sh_image) // idx_ms bind_Ok size_idx mul1n.
case dvdL: (784 %| H * W) => //; eexists; first by [].
rewrite [shape _]/shape [data _]/data images_of_one_row //; split=> //.
- case: ifP => // neq784; rewrite !inE /= orbF eq_sym.
  by apply: contraFN neq784 => /eqP eq1; rewrite -(divnK dvdL) eq1.
- case: ifP => [/eqP eq784|neq784].
    by rewrite !eqseq_cons andbT !(eq_sym 28).
  have -> : ([:: (H * W) %/ 784; 28; 28] == [:: H; W]) = false.
    by apply/eqP => /(congr1 size).
  apply/esym/negP => /andP[/eqP eqH /eqP eqW].
  by rewrite eqH eqW in neq784.
rewrite /gather_rows /= cats0 size_gather_row ?(size_mapM idx_ms) //.
have size_b : size (block (H * W) (data image) 0) = H * W.
  apply: (@size_block _ _ 1) => //.
  by rewrite (eqP wf_image) sh_image /= muln1 mul1n.
by rewrite size_b; apply: mapM_norm_index_lt idx_ms.
Qed.

Lemma squeeze_shape_batch N :
  squeeze_shape [:: N; 28; 28] = if N == 1 then [:: 28; 28] else [:: N; 28; 28].
Proof. by rewrite /squeeze_shape /=; case: eqP. Qed.

(** C6, as the code has it.  For N >= 1 images of 28 x 28 pixels, a
    permutation p of [0, 784) and q its inverse, shuffling by p and then by
    q gives back the pixels of the batch unchanged, in the squeezed shape:
    the batch itself unless its shape is [1, 28, 28], which comes back as
    [28, 28]. *)
Theorem permute_unpermute_roundtrip T (image : ndarray T) (N : nat)
    (p q : seq int) :
  0 < N -> is_image_batch N image ->
  is_permutation 784 p -> is_inverse p q ->
  (y <- shuffle_image image p ;; shuffle_image y q) = Ok (squeeze image)
  /\ (shape image != [:: 1; 28; 28] -> squeeze image = image).
Proof.
move=> lt0N /andP[/eqP wf_image sh_image] perm_p inv_q.
have [ms_p [ms_q [-> -> perm_ms size_q [all_q inv_pq]]]] :=
  is_inverse_nat perm_p inv_q.
have size_p : size ms_p = 784 by rewrite (perm_size perm_ms) size_iota.
have sh_sq : squeeze_shape (shape image) = squeeze_shape [:: N; 28; 28].
  by case/orP: sh_image => [/eqP-> //|/andP[/eqP-> /eqP->]].
have size_data : size (data image) = N * 784.
  rewrite wf_image; case/orP: sh_image => [/eqP-> /=|/andP[/eqP-> /eqP->] //].
  by rewrite muln1.
split; last first.
  case: image sh_image {wf_image sh_sq size_data} => sh d /= + neq1.
  rewrite /squeeze /=; case/orP=> [/eqP eq_sh|/andP[_ /eqP-> //]].
  by move: neq1; rewrite eq_sh squeeze_shape_batch eqseq_cons andbT => /negPf->.
have idx_p : mapM (norm_index 784) [seq Posz m | m <- ms_p] = Ok ms_p.
  by rewrite mapM_norm_index_nat // (perm_iota_lt perm_ms).
have idx_q : mapM (norm_index 784) [seq Posz m | m <- ms_q] = Ok ms_q.
  by rewrite mapM_norm_index_nat.
rewrite (shuffle_image_784 lt0N sh_image _ idx_p) ?size_map // bind_Ok.
rewrite (shuffle_image_784 lt0N _ _ idx_q) ?size_map //.
  by rewrite /=; case: (N =P 1) => [->|_] //=; rewrite !eqxx.
by rewrite /squeeze sh_sq /= gather_rows_inverse.
Qed.

Lemma reversal_is_permutation : is_permutation 784 reversal.
Proof. by rewrite /is_permutation /reversal perm_rev. Qed.

Lemma reversal_is_inverse : is_inverse reversal reversal.
Proof. by vm_compute. Qed.

(** C3, as stated, fails: shuffle_image does not return [[3,1],[4,2]]. *)
Lemma permuter_2x2_fails :
  shuffle_image image_2x2 perm_2031 = Raise ValueError
  /\ shuffle_image image_2x2 perm_2031
     <> Ok (NdArray [:: 2; 2] [:: 3; 1; 4; 2]).
Proof. by []. Qed.

(** C3, as the code has it.  On the 2 x 2 image [[1,2],[3,4]] with the
    permutation [2,0,3,1], the image is flattened to [1,2,3,4] and
    image[:, shuf_idx] gives [3,1,4,2]; the last step reshapes to images of
    28 x 28 pixels, which four elements do not fill, and the call raises
    ValueError. *)
Theorem permuter_2x2_scenario :
  [/\ nd_reshape (NdArray [:: 1; 2; 2] (data image_2x2)) [:: Some 1; None]
      = Ok (NdArray [:: 1; 4] [:: 1; 2; 3; 4]),
      take_cols (NdArray [:: 1; 4] [:: 1; 2; 3; 4]) perm_2031
      = Ok (NdArray [:: 1; 4] [:: 3; 1; 4; 2]),
      nd_reshape (NdArray [:: 1; 4] [:: 3; 1; 4; 2])
        [:: None; Some 28; Some 28]
      = Raise ValueError
    & shuffle_image image_2x2 perm_2031 = Raise ValueError].
Proof. by []. Qed.

(** C6, as stated, fails: a batch of shape [1, 28, 28] does not come back
    as the same array, and on a batch of no image the first call raises
    ValueError. *)
Lemma roundtrip_batch1_squeezed :
  [/\ is_image_batch 1 ramp_batch1, is_permutation 784 reversal,
      is_inverse reversal reversal,
      (y <- shuffle_image ramp_batch1 reversal ;; shuffle_image y reversal)
      <> Ok ramp_batch1
    & shuffle_image empty_batch reversal = Raise ValueError].
Proof.
split; [by [] | exact: reversal_is_permutation
                | exact: reversal_is_inverse | | by [] ].
move/(congr1 (fun r => if r is Ok a then shape a else [::])).
by vm_compute.
Qed.

Lemma permute_unpermute_roundtrip_witness :
  (y <- shuffle_image ramp_batch1 reversal ;; shuffle_image y reversal)
  = Ok (squeeze ramp_batch1)
  /\ (shape ramp_batch1 != [:: 1; 28; 28] -> squeeze ramp_batch1 = ramp_batch1).
Proof.
apply: (@permute_unpermute_roundtrip nat ramp_batch1 1 reversal reversal
           isT _ reversal_is_permutation reversal_is_inverse).
by [].
Defined.

(** C10, as stated, fails: a lone image of shape [1, H, W] does not come
    back with shape [H, W] when it is not 28 x 28.  For [1, 2, 2] the call
    raises ValueError, for [1, 14, 56] the result has shape [28, 28], and
    for [1, 28, 56] it is a batch of two images. *)
Lemma single_image_batch_other_sizes :
  [/\ well_formed batch_2x2 /\ shape batch_2x2 = [:: 1; 2; 2],
      shuffle_image batch_2x2 perm_2031 = Raise ValueError,
      well_formed wide_batch1 /\ shape wide_batch1 = [:: 1; 14; 56],
      map_result (@shape nat) (shuffle_image wide_batch1 reversal)
      = Ok [:: 28; 28]
    & map_result (@shape nat) (shuffle_image long_batch1 long_perm)
      = Ok [:: 2; 28; 28]].
Proof. by split; vm_compute. Qed.

Lemma single_image_batch_squeezed_witness :
  exists2 out, shuffle_image ramp_batch1 reversal = Ok out
    & [/\ shape out = (if 28 * 28 == 784 then [:: 28; 28]
                       else [:: 28 * 28 %/ 784; 28; 28]),
          1 \notin shape out,
          (shape out == [:: 28; 28]) = (28 == 28) && (28 == 28)
        & size (data out) = 28 * 28].
Proof.
apply: (@single_image_batch_squeezed nat ramp_batch1 28 28 reversal);
  vm_compute; reflexivity.
Defined.

Section Memory.

Variable T : Type.
Implicit Types (h : heap T) (image : aref) (idx : seq int).

(* One call adds at most the buffer of its result to the store, and what
   it returns is what shuffle_image computes from the array it was given. *)
Lemma shuffle_image_mem_spec h image idx :
  let: (h1, r1) := shuffle_image_mem image idx h in
  exists2 ext, h1 = h ++ ext
    & match r1, shuffle_image (deref h image) idx with
      | Ok out, Ok v => ext = [:: data v] /\ out = ARef (size h) (shape v)
      | Raise e, Raise e' => e = e'
      | _, _ => False
      end.
Proof.
rewrite /shuffle_image_mem /shuffle_image /ndim /nd_reshape /bindM.
rewrite /lift_result /read /new_array /ret /view /deref /=.
case: (size (ashape image) == 2) => /=.
  case: (reshape_shape _ _) => [sh|e] /=; last by exists [::]; rewrite ?cats0.
  case: (take_cols _ _) => [g|e] /=; last by exists [::]; rewrite ?cats0.
  case: (reshape_shape _ _) => [sh'|e] /=; exists [:: data g] => //.
  by rewrite cats1.
  by rewrite cats1.
case: (first_dim _) => [n|e] /=; last by exists [::]; rewrite ?cats0.
case: (reshape_shape _ _) => [sh|e] /=; last by exists [::]; rewrite ?cats0.
case: (take_cols _ _) => [g|e] /=; last by exists [::]; rewrite ?cats0.
case: (reshape_shape _ _) => [sh'|e] /=; exists [:: data g] => //.
  by rewrite cats1.
by rewrite cats1.
Qed.

Lemma deref_cat h ext image :
  buf image < size h -> deref (h ++ ext) image = deref h image.
Proof. by move=> lt_buf; rewrite /deref nth_cat lt_buf. Qed.

End Memory.

(** C8.  shuffle_image on an array object of the store: the buffers that
    existed before the call are unchanged after it, so the input batch holds
    the same pixels; the array returned is the one shuffle_image computes
    from the input, on a fresh buffer; and a second call with the same
    arguments returns an array equal to the first. *)
Theorem shuffle_image_pure T (h : heap T) (image : aref) (shuf_idx : seq int) :
  buf image < size h ->
  let run1 := shuffle_image_mem image shuf_idx h in
  let run2 := shuffle_image_mem image shuf_idx run1.1 in
  [/\ take (size h) run1.1 = h,
      deref run1.1 image = deref h image,
      map_result (deref run1.1) run1.2
      = shuffle_image (deref h image) shuf_idx,
      map_result (deref run2.1) run2.2 = map_result (deref run1.1) run1.2
    & forall out, run1.2 = Ok out -> buf out = size h].
Proof.
move=> lt_buf.
have := shuffle_image_mem_spec h image shuf_idx.
case: (shuffle_image_mem image shuf_idx h) => h1 r1 [ext eq_h1 spec1] /=.
have := shuffle_image_mem_spec h1 image shuf_idx.
case: (shuffle_image_mem image shuf_idx h1) => h2 r2 [ext2 eq_h2 spec2] /=.
have deref1 : deref h1 image = deref h image by rewrite eq_h1 deref_cat.
have res A (hh : heap A) r ext' :
    match r, shuffle_image (deref hh image) shuf_idx with
    | Ok out, Ok v => ext' = [:: data v] /\ out = ARef (size hh) (shape v)
    | Raise e, Raise e' => e = e'
    | _, _ => False
    end ->
    map_result (deref (hh ++ ext')) r
    = shuffle_image (deref hh image) shuf_idx.
  case: r => [out|e]; case: (shuffle_image _ _) => [v|e'] //=; last first.
    by move=> ->.
  case=> -> ->; rewrite /deref /= nth_cat ltnn subnn /=.
  by case: v.
split=> //.
- by rewrite eq_h1 take_size_cat.
- by rewrite eq_h1; apply: res.
- by rewrite eq_h2 (res _ h1) // deref1 eq_h1 (res _ h).
- move=> out eq_r1; move: spec1; rewrite eq_r1.
  by case: (shuffle_image _ _) => // v [_ ->].
Qed.

Lemma shuffle_image_pure_witness :
  let run1 := shuffle_image_mem ramp_ref reversal ramp_heap in
  let run2 := shuffle_image_mem ramp_ref reversal run1.1 in
  [/\ take (size ramp_heap) run1.1 = ramp_heap,
      deref run1.1 ramp_ref = deref ramp_heap ramp_ref,
      map_result (deref run1.1) run1.2
      = shuffle_image (deref ramp_heap ramp_ref) reversal,
      map_result (deref run2.1) run2.2 = map_result (deref run1.1) run1.2
    & forall out, run1.2 = Ok out -> buf out = size ramp_heap].
Proof.
exact (@shuffle_image_pure nat ramp_heap ramp_ref reversal isT).
Defined.

Section Blocks.

Variable T : Type.

Lemma nth_block x0 (blk : nat) (s : seq T) m h :
  h < blk -> nth x0 (block blk s m) h = nth x0 s (m * blk + h).
Proof. by move=> lth; rewrite /block nth_take // nth_drop. Qed.

Lemma map_nth_indices (F : nat -> seq T) (ms : seq nat) :
  [seq F m | m <- ms] = [seq F (nth 0 ms i) | i <- iota 0 (size ms)].
Proof. by rewrite -{1}(mkseq_nth 0 ms) /mkseq -map_comp. Qed.

(* row i of the gathered blocks is block ms[i] of the source *)
Lemma block_gather (blk D : nat) (s : seq T) (ms : seq nat) i :
  size s = D * blk -> all (fun m => m < D) ms -> i < size ms ->
  block blk (flatten [seq block blk s m | m <- ms]) i
  = block blk s (nth 0 ms i).
Proof.
move=> size_s all_ms lti; rewrite map_nth_indices.
rewrite (@block_flatten _ (fun i => block blk s (nth 0 ms i)) blk 0) //.
move=> j ltj; rewrite add0n (@size_block _ blk D) //.
by move/all_nthP: all_ms; apply.
Qed.

End Blocks.

Section Realigner.

Variable R : pzSemiRingType.
Implicit Types (K b : ndarray R) (x : seq R) (p : seq int) (ms : seq nat).

Lemma take_rows_nat K D H ms :
  shape K = [:: D; H] -> all (fun m => m < D) ms ->
  take_rows K [seq Posz m | m <- ms]
  = Ok (NdArray [:: size ms; H]
          (flatten [seq block H (data K) m | m <- ms])).
Proof.
move=> sh_K all_ms; rewrite /take_rows sh_K mapM_norm_index_nat //=.
by rewrite size_map muln1.
Qed.

Lemma entry_gather K D H ms i h :
  shape K = [:: D; H] -> well_formed K ->
  all (fun m => m < D) ms -> i < size ms -> h < H ->
  entry H (flatten [seq block H (data K) m | m <- ms]) i h
  = entry H (data K) (nth 0 ms i) h.
Proof.
move=> sh_K /eqP wf_K all_ms lti lth; rewrite /entry.
have size_K : size (data K) = D * H by rewrite wf_K sh_K /= muln1.
by rewrite -nth_block // (block_gather size_K) // nth_block.
Qed.

Lemma kernelT_dot_gather K K' D H ms x :
  shape K = [:: D; H] -> well_formed K -> size x = D ->
  perm_eq ms (iota 0 D) ->
  shape K' = [:: D; H] ->
  data K' = flatten [seq block H (data K) m | m <- ms] ->
  kernelT_dot K' (gather_row x ms) = kernelT_dot K x.
Proof.
move=> sh_K wf_K size_x perm_ms sh_K' data_K'.
have all_ms := perm_iota_lt perm_ms.
have size_ms : size ms = D by rewrite (perm_size perm_ms) size_iota.
rewrite /kernelT_dot sh_K sh_K' data_K'.
apply/eq_in_map => h; rewrite mem_iota add0n => /andP[_ lth].
transitivity (\sum_(j <- [seq nth 0 ms i | i <- iota 0 D])
                entry H (data K) j h * nth 0 x j)%R; last first.
  by rewrite -size_ms -/(mkseq _ _) mkseq_nth size_ms; apply: perm_big.
rewrite big_map big_seq [RHS]big_seq; apply: eq_bigr => i.
rewrite mem_iota add0n => /andP[_ lti].
rewrite (entry_gather sh_K) ?size_ms // (gather_row_nth 0%R) ?size_x //.
by rewrite (nth_map 0) ?size_ms.
Qed.

End Realigner.

(** C1.  For a kernel K of shape [D, H], any b, K2, b2, a permutation p of
    [0, D) and an image x of D pixels: magic installs [K'; b; K2; b2] where
    row i of K' is row p[i] of K, image[:, shuf_idx] turns the flattened
    image into x' with x'[i] = x[p[i]], and K'^T . x' = K^T . x, so the
    pre-activation values of the first layer are the same.  For D = 784,
    x' is the image that shuffle_image returns. *)
Theorem realigned_preactivation (R : pzSemiRingType) (K b K2 b2 : ndarray R)
    (D H : nat) (p : seq int) (x : seq R) :
  shape K = [:: D; H] -> well_formed K -> is_permutation D p -> size x = D ->
  exists K' x',
    [/\ magic [:: K; b; K2; b2] p = ([:: K'; b; K2; b2], Ok tt),
        take_cols (NdArray [:: 1; D] x) p = Ok (NdArray [:: 1; D] x'),
        [/\ shape K' = [:: D; H],
            forall i h, i < D -> h < H ->
              entry H (data K') i h = entry H (data K) `|nth 0%R p i| h
          & forall i, i < D -> nth 0%R x' i = nth 0%R x `|nth 0%R p i|],
        kernelT_dot K' x' = kernelT_dot K x
      & D = 784 ->
        shuffle_image (NdArray [:: 28; 28] x) p = Ok (NdArray [:: 28; 28] x')].
Proof.
move=> sh_K wf_K /is_permutation_nat[ms -> perm_ms] size_x.
have all_ms := perm_iota_lt perm_ms.
have size_ms : size ms = D by rewrite (perm_size perm_ms) size_iota.
have idx_ms : mapM (norm_index D) [seq Posz m | m <- ms] = Ok ms.
  exact: mapM_norm_index_nat.
have block_x : block D x 0 = x.
  by rewrite /block mul0n drop0 take_oversize // size_x.
have nth_p i : i < D -> `|nth 0%R [seq Posz m | m <- ms] i| = nth 0 ms i.
  by move=> lti; rewrite (nth_map 0) ?size_ms.
pose K' := NdArray [:: D; H] (flatten [seq block H (data K) m | m <- ms]).
exists K', (gather_row x ms); split.
- rewrite /magic /get_weights (take_rows_nat sh_K) // bind_Ok.
  by rewrite /set_weights /= size_ms sh_K eqxx.
- rewrite /take_cols /= idx_ms /= size_map size_ms muln1 block_x.
  by rewrite /gather_row cats0.
- split=> // [i h lti lth|i lti]; rewrite nth_p //.
    by rewrite (entry_gather sh_K) ?size_ms.
  by rewrite (gather_row_nth 0%R) ?size_x // (nth_map 0) ?size_ms.
- exact: (kernelT_dot_gather sh_K).
move=> eqD; rewrite eqD in size_ms idx_ms block_x.
rewrite (@shuffle_image_784 _ _ 1 _ ms) ?size_map //=.
by rewrite /gather_rows /= block_x cats0.
Qed.

Lemma realigned_preactivation_witness :
  exists K' x',
    [/\ magic [:: kernel_3x2; bias_2; kernel_2x1; bias_1] perm_201
        = ([:: K'; bias_2; kernel_2x1; bias_1], Ok tt),
        take_cols (NdArray [:: 1; 3] pixels_3) perm_201
        = Ok (NdArray [:: 1; 3] x'),
        [/\ shape K' = [:: 3; 2],
            forall i h, i < 3 -> h < 2 ->
              entry 2 (data K') i h
              = entry 2 (data kernel_3x2) `|nth 0%R perm_201 i| h
          & forall i, i < 3 ->
              nth 0%R x' i = nth 0%R pixels_3 `|nth 0%R perm_201 i|],
        kernelT_dot K' x' = kernelT_dot kernel_3x2 pixels_3
      & 3 = 784 ->
        shuffle_image (NdArray [:: 28; 28] pixels_3) perm_201
        = Ok (NdArray [:: 28; 28] x')].
Proof.
exact (@realigned_preactivation _ kernel_3x2 bias_2 kernel_2x1 bias_1
         3 2 perm_201 pixels_3 erefl isT isT erefl).
Defined.

(** C4, as the code has it.  shuffle_image has no length check of its own:
    on N >= 1 images of 28 x 28 pixels with indices in range it returns when
    N * len(shuf_idx) is a multiple of 784 and raises ValueError (from the
    last reshape) otherwise, and it raises IndexError when an index is out of
    range.  magic raises ValueError when the model does not hold exactly
    four arrays, and, through set_weights, when the number of indices
    differs from the row count of the kernel (IndexError when an index is out
    of range); the model is then as before.  No call of shuffle_image
    changes a buffer that existed before it. *)
Theorem shape_mismatch_behaviour (T : Type) :
  [/\ forall (image : ndarray T) N idx,
        0 < N -> is_image_batch N image ->
        all (fun k => is_ok (norm_index 784 k)) idx ->
        (784 %| N * size idx -> is_ok (shuffle_image image idx))
        /\ (~~ (784 %| N * size idx) ->
            shuffle_image image idx = Raise ValueError),
      forall (image : ndarray T) N idx,
        0 < N -> is_image_batch N image ->
        ~~ all (fun k => is_ok (norm_index 784 k)) idx ->
        shuffle_image image idx = Raise IndexError,
      forall (model : keras_model T) idx,
        size (get_weights model) != 4 ->
        magic model idx = (model, Raise ValueError),
      forall (K b w c : ndarray T) D H idx,
        shape K = [:: D; H] -> size idx != D ->
        magic [:: K; b; w; c] idx
        = ([:: K; b; w; c],
           Raise (if all (fun k => is_ok (norm_index D k)) idx
                  then ValueError else IndexError))
    & forall (h : heap T) image idx,
        buf image < size h ->
        let run := shuffle_image_mem image idx h in
        take (size h) run.1 = h /\ deref run.1 image = deref h image].
Proof.
have batch (image : ndarray T) N idx :
    0 < N -> is_image_batch N image ->
    shuffle_image image idx
    = (ms <- mapM (norm_index 784) idx ;;
       if 784 %| N * size idx
       then Ok (NdArray (squeeze_shape [:: N * size idx %/ 784; 28; 28])
                  (gather_rows N 784 (data image) ms))
       else Raise ValueError).
  move=> lt0N /andP[_ /orP[/eqP sh|/andP[/eqP eqN /eqP sh]]].
    by rewrite (shuffle_image_batch _ sh).
  rewrite (shuffle_image_single _ sh).
  by rewrite (@shuffle_image_batch _ _ N 28 28) ?eqN.
split.
- move=> image N idx lt0N is_b /mapM_is_ok[ms idx_ms].
  by rewrite (batch _ N) // idx_ms /=; split=> [->|/negPf->].
- move=> image N idx lt0N is_b /mapM_norm_index_raise idx_raise.
  by rewrite (batch _ N) // idx_raise.
- rewrite /magic /get_weights => model idx.
  by case: model => [|W [|b [|w [|c [|? ?]]]]].
- move=> K b w c D H idx sh_K neq_size; rewrite /magic /get_weights /take_rows.
  rewrite sh_K; case: ifP => [/mapM_is_ok[ms ->]|/negbT] /=; last first.
    by move/mapM_norm_index_raise->.
  by rewrite /set_weights /= sh_K !eqseq_cons (negPf neq_size).
move=> h image idx lt_buf.
have := shuffle_image_mem_spec h image idx.
case: (shuffle_image_mem image idx h) => h1 r1 [ext -> _] /=.
by rewrite take_size_cat // deref_cat.
Qed.

(** C4, as stated, fails: two 28 x 28 images and an index array of length
    392, not 784, are accepted, and one image is returned. *)
Lemma permuter_accepts_other_length :
  [/\ is_image_batch 2 two_images, is_permutation 392 half_perm,
      size half_perm != 784
    & shuffle_image two_images half_perm
      = Ok (NdArray [:: 28; 28] (iota 0 392 ++ iota 784 392))].
Proof.
split; [by [] | exact: perm_refl | by [] | by vm_compute].
Qed.

Lemma shape_mismatch_behaviour_witness :
  [/\ is_ok (shuffle_image two_images half_perm),
      shuffle_image ramp_batch1 perm_2031 = Raise ValueError,
      shuffle_image ramp_batch1 [:: Posz 784] = Raise IndexError,
      magic [:: kernel_3x2; bias_2] perm_201
      = ([:: kernel_3x2; bias_2], Raise ValueError)
    & magic [:: kernel_3x2; bias_2; kernel_2x1; bias_1] [:: Posz 2; Posz 0]
      = ([:: kernel_3x2; bias_2; kernel_2x1; bias_1], Raise ValueError)].
Proof.
have [len_nat oor_nat _ _ _] := shape_mismatch_behaviour nat.
have [_ _ four rows _] := shape_mismatch_behaviour int.
split.
- by apply: (proj1 (@len_nat two_images 2 half_perm _ _ _)); vm_compute.
- by apply: (proj2 (@len_nat ramp_batch1 1 perm_2031 _ _ _)); vm_compute.
- by apply: (@oor_nat ramp_batch1 1); vm_compute.
- exact: four.
- exact: (@rows kernel_3x2 bias_2 kernel_2x1 bias_1 3 2).
Defined.

(* --------------------------------------------------------------------- *)
(* Further properties of the generator                                   *)
(* --------------------------------------------------------------------- *)

Section GeneratorReach.

Lemma perm_array_of_permutation m (p : seq int) :
  is_permutation m.+1 p -> exists s : 'S_m.+1, p = perm_array s.
Proof.
move=> /is_permutation_nat[ms -> perm_ms].
have size_ms : size ms = m.+1 by rewrite (perm_size perm_ms) size_iota.
have uniq_ms : uniq ms by rewrite (perm_uniq perm_ms) iota_uniq.
have lt_ms (i : 'I_m.+1) : nth 0 ms i < m.+1.
  by move/all_nthP: (perm_iota_lt perm_ms); apply; rewrite size_ms.
pose f (i : 'I_m.+1) : 'I_m.+1 := inord (nth 0 ms i).
have inj_f : injective f.
  move=> i j /(congr1 val); rewrite /f /= !inordK // => /eqP.
  by rewrite nth_uniq ?size_ms // => /eqP/val_inj.
exists (perm inj_f); apply: (@eq_from_nth _ 0%R) => [|k].
  by rewrite size_map size_perm_array.
rewrite size_map size_ms => ltk.
rewrite (nth_map 0) ?size_ms // (nth_perm_array _ (Ordinal ltk)) permE /f.
by rewrite inordK //; apply: (lt_ms (Ordinal ltk)).
Qed.

Lemma tperm_prod_fix D (ts : seq ('I_D * 'I_D)) (k : 'I_D) :
  all (fun t => (t.1 != k) && (t.2 != k)) ts -> tperm_prod ts k = k.
Proof.
rewrite /tperm_prod; elim: ts => [_|t ts IH /= /andP[/andP[n1 n2] all_ts]].
  by rewrite big_nil perm1.
by rewrite big_cons permM tpermD // IH.
Qed.

End GeneratorReach.

(** X1.  Every permutation of [0, 784) is returned by get_shuffle_indices
    for some swap count and some draws of pairs of distinct positions:
    pairwise swaps generate every permutation. *)
Theorem generator_reaches_every_permutation (p : seq int) :
  is_permutation 784 p ->
  exists n draws,
    valid_draws 784 n draws /\ get_shuffle_indices (Posz n) draws = Ok p.
Proof.
move=> /perm_array_of_permutation[s ->].
have [ts eq_s dts] := prod_tpermP s.
pose rts := rev ts.
pose draws : rng := fun k =>
  let t := nth (ord0, ord0) rts k in (val t.1, val t.2).
have valid : valid_draws 784 (size ts) draws.
  move=> k ltk; rewrite /valid_draw /draws /= !ltn_ord /=.
  have: nth (ord0, ord0) rts k \in ts by rewrite -mem_rev mem_nth // size_rev.
  by move/(allP dts).
exists (size ts), draws; split=> //.
rewrite /get_shuffle_indices (@get_shuffle_indices_of_perm 783) //.
congr (Ok (perm_array _)); rewrite eq_s /tperm_prod; congr (\prod_(t <- _) _)%g.
rewrite -[RHS]revK -/rts; congr rev.
apply: (@eq_from_nth _ (ord0, ord0)) => [|k].
  by rewrite size_map size_iota size_rev.
rewrite size_map size_iota => ltk.
rewrite (nth_map 0) ?size_iota // nth_iota // add0n /draws /= !inord_val.
by case: (nth _ _ _).
Qed.

Lemma generator_reaches_every_permutation_witness :
  exists n draws,
    valid_draws 784 n draws /\ get_shuffle_indices (Posz n) draws = Ok reversal.
Proof.
exact (@generator_reaches_every_permutation reversal reversal_is_permutation).
Defined.

Section GeneratorMoves.

Lemma drawn_positionsP n draws k c :
  k \notin drawn_positions n draws -> c < n ->
  ((draws c).1 != k) && ((draws c).2 != k).
Proof.
rewrite /drawn_positions mem_cat negb_or => /andP[notin1 notin2] ltc.
apply/andP; split; [apply: contraNneq notin1|apply: contraNneq notin2] => <-.
  by apply/mapP; exists c; rewrite ?mem_iota.
by apply/mapP; exists c; rewrite ?mem_iota.
Qed.

Lemma size_drawn_positions n draws : size (drawn_positions n draws) = n.*2.
Proof. by rewrite /drawn_positions size_cat !size_map size_iota addnn. Qed.

Lemma transpositions_fix m draws n (k : 'I_m.+1) :
  valid_draws m.+1 n draws -> val k \notin drawn_positions n draws ->
  tperm_prod (rev (transpositions m draws 0 n)) k = k.
Proof.
move=> valid notin; apply: tperm_prod_fix; rewrite all_rev.
apply/allP => t /mapP[c]; rewrite mem_iota add0n => /andP[_ ltc] -> /=.
have /and3P[lt1 lt2 _] := valid c ltc.
by rewrite -!val_eqE /= !inordK // (drawn_positionsP notin).
Qed.

End GeneratorMoves.

(** X2.  After n swaps every position that was never drawn still holds its
    own index, so at most 2n of the 784 entries differ from the identity. *)
Theorem generator_moves_at_most_2n (n : nat) (draws : rng) :
  valid_draws 784 n draws ->
  exists2 p, get_shuffle_indices (Posz n) draws = Ok p
    & (forall k, k < 784 -> k \notin drawn_positions n draws ->
         nth 0%R p k = Posz k)
      /\ count (fun k => nth 0%R p k != Posz k) (iota 0 784) <= n.*2.
Proof.
move=> valid; rewrite /get_shuffle_indices.
rewrite (@get_shuffle_indices_of_perm 783) //; eexists; first by [].
set s := tperm_prod _.
have fixed k : k < 784 -> k \notin drawn_positions n draws ->
    nth 0%R (perm_array s) k = Posz k.
  move=> ltk notin; rewrite (nth_perm_array s (Ordinal ltk)).
  by rewrite /s (transpositions_fix valid).
split=> //; rewrite -size_filter -(size_drawn_positions n draws).
apply: uniq_leq_size; first by rewrite filter_uniq ?iota_uniq.
move=> k; rewrite mem_filter mem_iota add0n => /andP[moved /andP[_ ltk]].
by apply: contraNT moved => /(fixed k ltk) ->; rewrite eqxx.
Qed.

Lemma generator_moves_at_most_2n_witness :
  exists2 p, get_shuffle_indices (Posz 3) successive_draws = Ok p
    & (forall k, k < 784 -> k \notin drawn_positions 3 successive_draws ->
         nth 0%R p k = Posz k)
      /\ count (fun k => nth 0%R p k != Posz k) (iota 0 784) <= 3.*2.
Proof.
exact (@generator_moves_at_most_2n 3 successive_draws
         (@successive_draws_valid 3 isT)).
Defined.



(* --------------------------------------------------------------------- *)
(* Further properties of shuffle_image                                   *)
(* --------------------------------------------------------------------- *)

Section Gathering.

Variable T : Type.
Implicit Types (row s : seq T) (ms : seq nat).

Lemma gather_row_iota row : gather_row row (iota 0 (size row)) = row.
Proof.
case: row => [|x0 row] //; set r := x0 :: row.
rewrite (gather_row_nth x0) ?mkseq_nth -/(mkseq _ _) ?mkseq_nth //.
by apply/allP => m; rewrite mem_iota.
Qed.

Lemma gather_row_gather row ms_p ms_q :
  all (fun m => m < size row) ms_p -> all (fun m => m < size ms_p) ms_q ->
  gather_row (gather_row row ms_p) ms_q
  = gather_row row [seq nth 0 ms_p m | m <- ms_q].
Proof.
case: row => [|x0 row]; first by case: ms_p => // _; case: ms_q.
set r := x0 :: row => all_p all_q.
have all_pq : all (fun m => m < size r) [seq nth 0 ms_p m | m <- ms_q].
  rewrite all_map; apply/allP => m /(allP all_q) /= ltm.
  by move/all_nthP: all_p; apply.
rewrite (gather_row_nth x0 all_p) (gather_row_nth x0 all_pq).
rewrite (gather_row_nth x0) ?size_map // -map_comp.
apply/eq_in_map => m /(allP all_q) /= ltm.
by rewrite (nth_map 0).
Qed.

Lemma block_gather_rows N D s ms r :
  size s = N * D -> all (fun m => m < D) ms -> size ms = D -> r < N ->
  block D (gather_rows N D s ms) r = gather_row (block D s r) ms.
Proof.
move=> size_s all_ms size_ms ltr; rewrite /gather_rows.
rewrite (@block_flatten _ (fun i => gather_row (block D s i) ms) D 0 N r) //.
by move=> i lti; rewrite add0n size_gather_row ?(size_block size_s).
Qed.

Lemma size_flatten_const (F : nat -> seq T) d (rs : seq nat) :
  (forall r, r \in rs -> size (F r) = d) ->
  size (flatten [seq F r | r <- rs]) = size rs * d.
Proof.
elim: rs => [|r rs IHrs] size_F //=.
rewrite size_cat size_F ?mem_head // IHrs ?mulSn // => i in_rs.
by apply: size_F; rewrite inE in_rs orbT.
Qed.

Lemma size_gather_rows N D s ms :
  size s = N * D -> all (fun m => m < D) ms ->
  size (gather_rows N D s ms) = N * size ms.
Proof.
move=> size_s all_ms; rewrite /gather_rows.
rewrite (@size_flatten_const _ (size ms)) ?size_iota // => r.
rewrite mem_iota add0n => /andP[_ ltr].
by rewrite size_gather_row ?(size_block size_s).
Qed.

End Gathering.

Section PermuterLaws.

Variable T : Type.
Implicit Types (image : ndarray T) (idx p q : seq int).

Lemma nth_mapM A B (f : A -> result B) (s : seq A) ys a b k :
  mapM f s = Ok ys -> k < size s -> f (nth a s k) = Ok (nth b ys k).
Proof.
elim: s ys k => [|x s IHs] ys k //=.
case fx: (f x) => [y|] //=; case: (mapM f s) IHs => //= ys' IHs [<-].
by case: k => [|k] //= ltk; apply: IHs.
Qed.

Lemma image_batch_size N image :
  is_image_batch N image -> size (data image) = N * 784.
Proof.
case/andP=> /eqP-> /orP[/eqP-> /=|/andP[/eqP-> /eqP->] //].
by rewrite muln1.
Qed.

Lemma image_batch_shape N image :
  is_image_batch N image ->
  (shape image == [:: N; 28; 28]) || (N == 1) && (shape image == [:: 28; 28]).
Proof. by case/andP. Qed.

Lemma squeezed_image_batch N image :
  is_image_batch N image ->
  squeeze_shape (shape image) = squeeze_shape [:: N; 28; 28].
Proof. by case/andP=> _ /orP[/eqP-> //|/andP[/eqP-> /eqP->]]. Qed.

(* the result of a call is again a batch of N images *)
Lemma shuffled_image_batch N (s : seq T) :
  0 < N -> size s = N * 784 ->
  is_image_batch N (NdArray (squeeze_shape [:: N; 28; 28]) s).
Proof.
move=> lt0N size_s; rewrite /is_image_batch /well_formed.
rewrite [shape _]/shape [data _]/data squeeze_shape_batch size_s.
case: (N =P 1) => [->|_] /=; first by rewrite eqxx.
by rewrite !muln1 !eqxx.
Qed.

End PermuterLaws.

(** X4.  On a batch of N >= 1 images of 28 x 28 pixels and an index array
    of 784 indices in range, shuffle_image returns a batch of N images in
    the squeezed shape of the input, and pixel k of image r of the result is
    pixel shuf_idx[k] of image r of the input (negative indices counted from
    the end). *)
Theorem shuffle_image_pixels T (x0 : T) (image : ndarray T) (N : nat)
    (idx : seq int) :
  0 < N -> is_image_batch N image -> size idx = 784 ->
  all (fun k => is_ok (norm_index 784 k)) idx ->
  exists2 out, shuffle_image image idx = Ok out
    & [/\ is_image_batch N out, shape out = squeeze_shape (shape image)
        & forall r k m, r < N -> k < 784 ->
            norm_index 784 (nth 0%R idx k) = Ok m ->
            nth x0 (data out) (r * 784 + k)
            = nth x0 (data image) (r * 784 + m)].
Proof.
move=> lt0N batch size_idx /mapM_is_ok[ms idx_ms].
have size_s := image_batch_size batch.
have all_ms := mapM_norm_index_lt idx_ms.
have size_ms : size ms = 784 by rewrite (size_mapM idx_ms).
rewrite (shuffle_image_784 lt0N (image_batch_shape batch) size_idx idx_ms).
eexists; first by []; split.
- by apply: shuffled_image_batch; rewrite ?size_gather_rows ?size_ms.
- by rewrite (squeezed_image_batch batch).
move=> r k m ltr ltk; rewrite (nth_mapM 0%R 0 idx_ms) ?size_idx // => -[<-].
have ltm : nth 0 ms k < 784 by move/all_nthP: all_ms; apply; rewrite size_ms.
rewrite [data _]/data -(nth_block x0 _ _ ltk) -(nth_block x0 _ _ ltm).
rewrite block_gather_rows // (gather_row_nth x0) ?(size_block size_s) //.
by rewrite (nth_map 0) ?size_ms.
Qed.

Section PermuterCompose.

Variable T : Type.
Implicit Types (image : ndarray T) (idx p q : seq int).

Lemma gather_rows_iota N (s : seq T) :
  size s = N * 784 -> gather_rows N 784 s (iota 0 784) = s.
Proof.
move=> size_s; rewrite -[RHS](flatten_blocks size_s) /gather_rows.
congr flatten; apply/eq_in_map => r; rewrite mem_iota add0n => /andP[_ ltr].
by rewrite -{2}(size_block size_s ltr) gather_row_iota.
Qed.

Lemma gather_rows_gather N D (s : seq T) ms_p ms_q :
  size s = N * D -> all (fun m => m < D) ms_p -> size ms_p = D ->
  all (fun m => m < D) ms_q ->
  gather_rows N D (gather_rows N D s ms_p) ms_q
  = gather_rows N D s [seq nth 0 ms_p m | m <- ms_q].
Proof.
move=> size_s all_p size_p all_q; rewrite {1}/gather_rows [RHS]/gather_rows.
congr flatten; apply/eq_in_map => r; rewrite mem_iota add0n => /andP[_ ltr].
rewrite block_gather_rows // gather_row_gather ?(size_block size_s) //.
by rewrite size_p.
Qed.

Lemma mapM_getitem p q ms :
  mapM (norm_index (size p)) q = Ok ms ->
  mapM (getitem p) q = Ok [seq nth 0%R p m | m <- ms].
Proof.
elim: q ms => [|k q IHq] ms /=; first by case=> <-.
rewrite /getitem; case: (norm_index _ k) => [m|] //=.
by case: (mapM _ q) IHq => //= ms' /(_ _ erefl) -> [<-].
Qed.

Lemma mapM_map_nth A B (f : A -> result B) (s : seq A) ys a b ms :
  mapM f s = Ok ys -> all (fun m => m < size s) ms ->
  mapM f [seq nth a s m | m <- ms] = Ok [seq nth b ys m | m <- ms].
Proof.
move=> s_ys; elim: ms => [|m ms IHms] //= /andP[ltm /IHms ->].
by rewrite (nth_mapM a b s_ys).
Qed.

Lemma all_iota_lt D : all (fun m => m < D) (iota 0 D).
Proof. by apply/allP => m; rewrite mem_iota. Qed.

Lemma get_shuffle_indices_no_swap (n : int) draws :
  (n <= 0)%R -> get_shuffle_indices n draws = Ok (arange (Posz 784)).
Proof. by case: n => [[|n]|n]. Qed.

End PermuterCompose.

(** X5.  Called with a swap count <= 0, get_shuffle_indices returns
    arange(784) whatever the random source, and shuffling a batch of N >= 1
    images by it returns the batch with its pixels in place (squeezed). *)
Theorem shuffle_image_no_swap T (image : ndarray T) (N : nat) (n : int)
    (draws : rng) :
  0 < N -> is_image_batch N image -> (n <= 0)%R ->
  get_shuffle_indices n draws = Ok (arange (Posz 784))
  /\ (p <- get_shuffle_indices n draws ;; shuffle_image image p)
     = Ok (squeeze image).
Proof.
move=> lt0N batch le_n0; rewrite get_shuffle_indices_no_swap // bind_Ok.
split=> //; have size_s := image_batch_size batch.
have idx_ms := mapM_norm_index_nat (all_iota_lt 784).
have size_idx : size [seq Posz m | m <- iota 0 784] = 784.
  by rewrite size_map size_iota.
rewrite (shuffle_image_784 lt0N (image_batch_shape batch) size_idx idx_ms).
rewrite /squeeze (squeezed_image_batch batch); congr (Ok (NdArray _ _)).
exact: gather_rows_iota.
Qed.

(** X6.  Shuffling by p and then by q is shuffling once by the index array
    p[q], for index arrays of 784 indices in range on a batch of N >= 1
    images; the two calls succeed. *)
Theorem shuffle_image_compose T (image : ndarray T) (N : nat)
    (p q : seq int) :
  0 < N -> is_image_batch N image ->
  size p = 784 -> all (fun k => is_ok (norm_index 784 k)) p ->
  size q = 784 -> all (fun k => is_ok (norm_index 784 k)) q ->
  (y <- shuffle_image image p ;; shuffle_image y q)
  = (pq <- mapM (getitem p) q ;; shuffle_image image pq)
  /\ is_ok (y <- shuffle_image image p ;; shuffle_image y q).
Proof.
move=> lt0N batch size_p /mapM_is_ok[ms_p p_ms] size_q /mapM_is_ok[ms_q q_ms].
have size_s := image_batch_size batch.
have all_p := mapM_norm_index_lt p_ms.
have all_q := mapM_norm_index_lt q_ms.
have size_ms_p : size ms_p = 784 by rewrite (size_mapM p_ms).
have size_ms_q : size ms_q = 784 by rewrite (size_mapM q_ms).
rewrite (shuffle_image_784 lt0N (image_batch_shape batch) size_p p_ms) bind_Ok.
have batch_y :
    is_image_batch N (NdArray (squeeze_shape [:: N; 28; 28])
                        (gather_rows N 784 (data image) ms_p)).
  by apply: shuffled_image_batch; rewrite ?size_gather_rows ?size_ms_p.
rewrite (shuffle_image_784 lt0N (image_batch_shape batch_y) size_q q_ms).
rewrite [data _]/data gather_rows_gather //; split=> //.
rewrite (@mapM_getitem p q ms_q) ?size_p // bind_Ok.
have pq_ms : mapM (norm_index 784) [seq nth 0%R p m | m <- ms_q]
             = Ok [seq nth 0 ms_p m | m <- ms_q].
  by apply: mapM_map_nth => //; rewrite size_p.
have size_pq : size [seq nth 0%R p m | m <- ms_q] = 784 by rewrite size_map.
by rewrite (shuffle_image_784 lt0N (image_batch_shape batch) size_pq pq_ms).
Qed.

Section PermuterImages.

Lemma gather_row_perm (T : eqType) D (row : seq T) ms :
  size row = D -> perm_eq ms (iota 0 D) -> perm_eq (gather_row row ms) row.
Proof.
move=> size_row perm_ms.
have all_ms : all (fun m => m < size row) ms.
  by rewrite size_row; apply: perm_iota_lt.
case: row size_row all_ms => [|x0 row'] size_row all_ms.
  by rewrite -size_row in perm_ms; rewrite (perm_small_eq _ perm_ms).
set row := x0 :: row' in size_row all_ms *.
rewrite (gather_row_nth x0 all_ms) -[X in perm_eq _ X](mkseq_nth x0 row).
by rewrite /mkseq size_row; apply: perm_map.
Qed.

Lemma block_whole (T : Type) D (s : seq T) : size s = D -> block D s 0 = s.
Proof. by move=> size_s; rewrite /block mul0n drop0 -size_s take_size. Qed.

Lemma gather_rows_one (T : Type) D (s : seq T) ms :
  size s = D -> gather_rows 1 D s ms = gather_row s ms.
Proof. by move=> size_s; rewrite /gather_rows /= cats0 block_whole. Qed.

End PermuterImages.

(** X7.  Shuffling by a permutation of [0, 784) keeps, image by image, the
    pixel values with their multiplicities: each image of the result is a
    rearrangement of the same image of the input. *)
Theorem shuffle_image_keeps_pixels (T : eqType) (image : ndarray T)
    (N : nat) (p : seq int) :
  0 < N -> is_image_batch N image -> is_permutation 784 p ->
  exists2 out, shuffle_image image p = Ok out
    & forall r, r < N ->
        perm_eq (block 784 (data out) r) (block 784 (data image) r).
Proof.
move=> lt0N batch /is_permutation_nat[ms -> perm_ms].
have size_s := image_batch_size batch.
have all_ms := perm_iota_lt perm_ms.
have size_ms : size ms = 784 by rewrite (perm_size perm_ms) size_iota.
have size_idx : size [seq Posz m | m <- ms] = 784 by rewrite size_map.
have idx_ms := mapM_norm_index_nat all_ms.
rewrite (shuffle_image_784 lt0N (image_batch_shape batch) size_idx idx_ms).
eexists; first by []; move=> r ltr; rewrite [data _]/data.
by rewrite block_gather_rows // (@gather_row_perm _ 784) ?(size_block size_s).
Qed.

(** X8.  For a batch of N >= 2 images, taking image k of the shuffled
    batch (x_train_shuf[k]) gives the same array as shuffling image k of
    the batch alone; both succeed for an index k in range. *)
Theorem shuffled_batch_item T (image : ndarray T) (N : nat) (idx : seq int)
    (k : int) :
  1 < N -> well_formed image -> shape image = [:: N; 28; 28] ->
  size idx = 784 -> all (fun i => is_ok (norm_index 784 i)) idx ->
  is_ok (norm_index N k) ->
  (out <- shuffle_image image idx ;; item out k)
  = (x <- item image k ;; shuffle_image x idx)
  /\ is_ok (x <- item image k ;; shuffle_image x idx).
Proof.
move=> lt1N wf_image sh_image size_idx /mapM_is_ok[ms idx_ms] ok_k.
have lt0N : 0 < N by apply: ltnW.
have batch : is_image_batch N image.
  by rewrite /is_image_batch wf_image sh_image eqxx.
have size_s := image_batch_size batch.
have all_ms := mapM_norm_index_lt idx_ms.
have size_ms : size ms = 784 by rewrite (size_mapM idx_ms).
rewrite (shuffle_image_784 lt0N (image_batch_shape batch) size_idx idx_ms).
rewrite bind_Ok squeeze_shape_batch [N == 1]eqn_leq leqNgt lt1N /=.
rewrite /item sh_image [shape _]/shape [data _]/data numel_28_28.
case k_r: (norm_index N k) ok_k => [r|] // _; rewrite !bind_Ok.
have ltr := norm_index_lt k_r.
have size_r := size_block size_s ltr.
have one : is_image_batch 1 (NdArray [:: 28; 28] (block 784 (data image) r)).
  by rewrite /is_image_batch /well_formed /= size_r.
rewrite (shuffle_image_784 (ltn0Sn 0) (image_batch_shape one) size_idx idx_ms).
by rewrite [data _]/data gather_rows_one // block_gather_rows.
Qed.

(* --------------------------------------------------------------------- *)
(* Further properties of magic                                           *)
(* --------------------------------------------------------------------- *)

Section MagicLaws.

Variable T : Type.
Implicit Types (W b w c : ndarray T) (idx p q : seq int) (ms : seq nat).

Lemma take_rows_ok W D H idx ms :
  shape W = [:: D; H] -> mapM (norm_index D) idx = Ok ms ->
  take_rows W idx
  = Ok (NdArray [:: size idx; H] (flatten [seq block H (data W) m | m <- ms])).
Proof. by move=> sh_W idx_ms; rewrite /take_rows sh_W idx_ms /= muln1. Qed.

Lemma magic_ok W b w c D H idx ms :
  shape W = [:: D; H] -> size idx = D -> mapM (norm_index D) idx = Ok ms ->
  magic [:: W; b; w; c] idx
  = ([:: NdArray [:: D; H] (flatten [seq block H (data W) m | m <- ms]);
         b; w; c], Ok tt).
Proof.
move=> sh_W size_idx idx_ms.
rewrite /magic /get_weights (take_rows_ok sh_W idx_ms) bind_Ok.
by rewrite /set_weights /= size_idx sh_W eqxx.
Qed.

Lemma gather_blocks_inverse D H (s : seq T) ms_p ms_q :
  size s = D * H -> all (fun m => m < D) ms_p -> size ms_p = D ->
  size ms_q = D -> all (fun m => m < D) ms_q ->
  (forall i, i < D -> nth 0 ms_p (nth 0 ms_q i) = i) ->
  flatten [seq block H (flatten [seq block H s m | m <- ms_p]) m | m <- ms_q]
  = s.
Proof.
move=> size_s all_p size_p size_q all_q inv_pq.
rewrite -[RHS](flatten_blocks size_s); congr flatten.
rewrite [LHS]map_nth_indices size_q; apply/eq_in_map => i.
rewrite mem_iota add0n => /andP[_ lti].
have ltq : nth 0 ms_q i < size ms_p.
  by rewrite size_p; move/all_nthP: all_q; apply; rewrite size_q.
by rewrite (block_gather size_s) // inv_pq.
Qed.

End MagicLaws.

(** X9.  For a kernel of shape [D, H], a permutation p of [0, D) and q its
    inverse, magic with p followed by magic with q succeeds twice and leaves
    the model with its four original weight arrays. *)
Theorem magic_inverse_restores T (W b w c : ndarray T) (D H : nat)
    (p q : seq int) :
  shape W = [:: D; H] -> well_formed W ->
  is_permutation D p -> is_inverse p q ->
  let run1 := magic [:: W; b; w; c] p in
  let run2 := magic run1.1 q in
  [/\ run1.2 = Ok tt, run2.2 = Ok tt & run2.1 = [:: W; b; w; c]].
Proof.
move=> sh_W /eqP wf_W perm_p inv_q.
have [ms_p [ms_q [-> -> perm_ms size_q [all_q inv_pq]]]] :=
  is_inverse_nat perm_p inv_q.
have all_p := perm_iota_lt perm_ms.
have size_p : size ms_p = D by rewrite (perm_size perm_ms) size_iota.
have size_s : size (data W) = D * H by rewrite wf_W sh_W /= muln1.
have size_ip : size [seq Posz m | m <- ms_p] = D by rewrite size_map.
have size_iq : size [seq Posz m | m <- ms_q] = D by rewrite size_map.
rewrite /= (magic_ok b w c sh_W size_ip (mapM_norm_index_nat all_p)).
rewrite [(_, _).1]/=.
set W1 := NdArray _ _.
have sh_W1 : shape W1 = [:: D; H] by [].
rewrite (magic_ok b w c sh_W1 size_iq (mapM_norm_index_nat all_q)).
rewrite [data _]/data (gather_blocks_inverse size_s) //; split=> //=.
by rewrite -sh_W; case: (W).
Qed.


(* --------------------------------------------------------------------- *)
(* Instances                                                             *)
(* --------------------------------------------------------------------- *)

Lemma reversal_in_range : all (fun k => is_ok (norm_index 784 k)) reversal.
Proof. by vm_compute. Qed.

Lemma size_reversal : size reversal = 784.
Proof. by rewrite /reversal size_rev size_arange. Qed.

Lemma shuffle_image_pixels_witness :
  exists2 out, shuffle_image two_images reversal = Ok out
    & [/\ is_image_batch 2 out, shape out = squeeze_shape (shape two_images)
        & forall r k m, r < 2 -> k < 784 ->
            norm_index 784 (nth 0%R reversal k) = Ok m ->
            nth 0 (data out) (r * 784 + k)
            = nth 0 (data two_images) (r * 784 + m)].
Proof.
exact (@shuffle_image_pixels nat 0 two_images 2 reversal isT isT
         size_reversal reversal_in_range).
Defined.

Lemma shuffle_image_no_swap_witness :
  get_shuffle_indices (Negz 3) successive_draws = Ok (arange (Posz 784))
  /\ (p <- get_shuffle_indices (Negz 3) successive_draws ;;
      shuffle_image two_images p)
     = Ok (squeeze two_images).
Proof.
exact (@shuffle_image_no_swap nat two_images 2 (Negz 3) successive_draws
         isT isT isT).
Defined.

Lemma shuffle_image_compose_witness :
  (y <- shuffle_image two_images reversal ;; shuffle_image y reversal)
  = (pq <- mapM (getitem reversal) reversal ;; shuffle_image two_images pq)
  /\ is_ok (y <- shuffle_image two_images reversal ;; shuffle_image y reversal).
Proof.
exact (@shuffle_image_compose nat two_images 2 reversal reversal isT isT
         size_reversal reversal_in_range size_reversal reversal_in_range).
Defined.

Lemma shuffle_image_keeps_pixels_witness :
  exists2 out, shuffle_image two_images reversal = Ok out
    & forall r, r < 2 ->
        perm_eq (block 784 (data out) r) (block 784 (data two_images) r).
Proof.
exact (@shuffle_image_keeps_pixels nat two_images 2 reversal isT isT
         reversal_is_permutation).
Defined.

Lemma shuffled_batch_item_witness :
  (out <- shuffle_image two_images reversal ;; item out (Negz 0))
  = (x <- item two_images (Negz 0) ;; shuffle_image x reversal)
  /\ is_ok (x <- item two_images (Negz 0) ;; shuffle_image x reversal).
Proof.
exact (@shuffled_batch_item nat two_images 2 reversal (Negz 0) isT isT erefl
         size_reversal reversal_in_range isT).
Defined.

Lemma magic_inverse_restores_witness :
  let run1 := magic [:: kernel_3x2; bias_2; kernel_2x1; bias_1] perm_201 in
  let run2 := magic run1.1 perm_120 in
  [/\ run1.2 = Ok tt, run2.2 = Ok tt
    & run2.1 = [:: kernel_3x2; bias_2; kernel_2x1; bias_1]].
Proof.
exact (@magic_inverse_restores int kernel_3x2 bias_2 kernel_2x1 bias_1 3 2
         perm_201 perm_120 erefl isT isT isT).
Defined.

